(** * A channel-backed counting semaphore with cancellable acquisition

    Shallow embedding of [semaphore.go] (package [semaphore]).

    The Go type is [type semaphore chan struct{}]: a semaphore IS a buffered
    channel of empty structs.  Taking a slot is a send on the channel,
    returning a slot is a receive, [Capacity] is [cap] and [Occupied] is
    [len].  The model therefore starts from the run-time state of such a
    channel and from what [select] does with it:

    - [dataqsiz] and [qcount] are the size of the buffer and the number of
      elements it holds (the elements are zero-sized, so the buffer content
      is its count);
    - [sendq] is the queue of goroutines parked in the [select] of [Acquire],
      oldest first.  No goroutine ever parks as a receiver: the only receive
      of the package is the [select] with a [default] of [Release];
    - the package never closes the channel (only the [Flush] helper of the
      test file does, once a test is over), so a closed flag would be
      constantly false and is left out.

    One [event] is one atomic action on the channel (the run time performs
    each of them under the channel lock); an interleaving of concurrent
    calls is a list of events. *)

From Stdlib Require Import ZArith String Bool List Lia.
Import ListNotations.
Local Open Scope Z_scope.

(** ** Errors *)

(** Go error values that can meet in a call of [Acquire] or [Release]: the
    two package-level errors of [semaphore.go], and the two errors a
    [context.Context] reports through [Err] once it is done. *)
Inductive error : Type :=
| errEmpty
| errTimeout
| ctxCanceled
| ctxDeadlineExceeded.

(** The [Error()] method. *)
Definition Error (e : error) : string :=
  match e with
  | errEmpty => "semaphore is empty"
  | errTimeout => "operation timeout"
  | ctxCanceled => "context canceled"
  | ctxDeadlineExceeded => "context deadline exceeded"
  end.

(** A call that may panic instead of returning. *)
Inductive result (A : Type) : Type :=
| Ok (a : A)
| Panic (msg : string).
Arguments Ok {A} a.
Arguments Panic {A} msg.

(** ** The cancellation signal *)

(** Why a [context.Context] is done. *)
Inductive cause : Type :=
| Canceled
| DeadlineExceeded.

(** The error [ctx.Err()] reports for each cause. *)
Definition cause_error (why : cause) : error :=
  match why with
  | Canceled => ctxCanceled
  | DeadlineExceeded => ctxDeadlineExceeded
  end.

(** What [Acquire] can observe of a [context.Context] at one instant:
    whether its [Done] channel is closed and, if so, why. *)
Inductive Context : Type :=
| Active
| Finished (why : cause).

Definition Background : Context := Active.

(** [context.WithTimeout(parent, timeout)] as observed right after the call:
    a duration that is zero or negative cancels the new context at once with
    [DeadlineExceeded]; a done parent hands its cause down. *)
Definition WithTimeout (parent : Context) (timeout : Z) : Context :=
  match parent with
  | Finished why => Finished why
  | Active => if timeout <=? 0 then Finished DeadlineExceeded else Active
  end.

(** The [CancelFunc]: the first cause sticks. *)
Definition cancel (ctx : Context) : Context :=
  match ctx with
  | Active => Finished Canceled
  | Finished why => Finished why
  end.

(** [<-ctx.Done()] can proceed. *)
Definition Done (ctx : Context) : bool :=
  match ctx with
  | Active => false
  | Finished _ => true
  end.

Definition Err (ctx : Context) : option error :=
  match ctx with
  | Active => None
  | Finished why => Some (cause_error why)
  end.

(** ** The semaphore *)

Definition goroutine : Type := Z.

(** [type semaphore chan struct{}]. *)
Record semaphore : Type := mkSem {
  dataqsiz : Z;
  qcount : Z;
  sendq : list goroutine
}.

(** [make(semaphore, capacity)]: the element size is zero, so the only
    size the run time refuses is a negative one. *)
Definition make (size : Z) : result semaphore :=
  if size <? 0 then Panic "makechan: size out of range"
  else Ok (mkSem size 0 []).

Definition New (capacity : Z) : result semaphore := make capacity.

(** [cap(sem)] and [len(sem)]. *)
Definition Capacity (sem : semaphore) : Z := dataqsiz sem.
Definition Occupied (sem : semaphore) : Z := qcount sem.

(** The two release capabilities [Acquire] can return: the package-level
    [nothing] ([func() {}]) and the closure [releaser(sem)] over the
    semaphore. *)
Inductive ReleaseFunc : Type :=
| nothing
| releaser.

(** What a goroutine gets back from the channel. *)
Inductive response : Type :=
| AcquireReturns (g : goroutine) (release : ReleaseFunc) (err : option error)
| AcquireSuspends (g : goroutine)
| ReleaseReturns (err : option error)
| ReleaseFuncReturns.

(** The order in which [select] polls the two cases of [Acquire]; the run
    time draws it at random on every call. *)
Inductive pollorder : Type :=
| SendFirst
| DoneFirst.

(** [sem <- struct{}{}] can proceed without waiting: there is room in the
    buffer (a parked receiver would do too, but there is never one). *)
Definition can_send (sem : semaphore) : bool := qcount sem <? dataqsiz sem.

Definition bufsend (sem : semaphore) : semaphore :=
  mkSem (dataqsiz sem) (qcount sem + 1) (sendq sem).

Definition bufrecv (sem : semaphore) : semaphore :=
  mkSem (dataqsiz sem) (qcount sem - 1) (sendq sem).

Definition park (g : goroutine) (sem : semaphore) : semaphore :=
  mkSem (dataqsiz sem) (qcount sem) (sendq sem ++ [g]).

(** [Acquire], from the call up to the point where [select] has either
    taken a case or parked the goroutine [g] on both channels. *)
Definition Acquire (sem : semaphore) (g : goroutine) (ctx : Context)
    (order : pollorder) : semaphore * response :=
  match order with
  | SendFirst =>
      if can_send sem then (bufsend sem, AcquireReturns g releaser None)
      else if Done ctx then (sem, AcquireReturns g nothing (Some errTimeout))
      else (park g sem, AcquireSuspends g)
  | DoneFirst =>
      if Done ctx then (sem, AcquireReturns g nothing (Some errTimeout))
      else if can_send sem then (bufsend sem, AcquireReturns g releaser None)
      else (park g sem, AcquireSuspends g)
  end.

(** Removing the first entry of [g] from a wait queue. *)
Fixpoint dequeue (g : goroutine) (q : list goroutine) : list goroutine :=
  match q with
  | [] => []
  | h :: t => if Z.eqb h g then t else h :: dequeue g t
  end.

Fixpoint parked (g : goroutine) (q : list goroutine) : bool :=
  match q with
  | [] => false
  | h :: t => Z.eqb h g || parked g t
  end.

(** The rest of [Acquire] for a goroutine parked in the [select], when its
    context becomes done before a slot reaches it: the goroutine leaves the
    queue of the channel and takes the second case. *)
Definition AcquireDone (sem : semaphore) (g : goroutine)
    : semaphore * list response :=
  if parked g (sendq sem)
  then (mkSem (dataqsiz sem) (qcount sem) (dequeue g (sendq sem)),
        [AcquireReturns g nothing (Some errTimeout)])
  else (sem, []).

(** [Release]: a receive that does not wait.  The run time serves a
    parked sender first (on a buffered channel the buffer is then full: the
    head element leaves and the element of the sender takes the free place,
    on an unbuffered one the element is taken from the sender directly),
    then the buffer, and falls to [default] otherwise.  The third component
    is the goroutine whose [Acquire] the receive completes. *)
Definition Release (sem : semaphore)
    : semaphore * option error * option goroutine :=
  match sendq sem with
  | g :: waiting => (mkSem (dataqsiz sem) (qcount sem) waiting, None, Some g)
  | [] =>
      if 0 <? qcount sem then (bufrecv sem, None, None)
      else (sem, Some errEmpty, None)
  end.

(** The [Acquire] of a parked goroutine returns from its first case. *)
Definition woken (w : option goroutine) : list response :=
  match w with
  | Some g => [AcquireReturns g releaser None]
  | None => []
  end.

(** Calling a [ReleaseFunc]. [releaser(sem)] is
    [func() { _ = releaser.Release() }]. *)
Definition call (f : ReleaseFunc) (sem : semaphore)
    : semaphore * list response :=
  match f with
  | nothing => (sem, [ReleaseFuncReturns])
  | releaser =>
      let '(sem', _, w) := Release sem in
      (sem', ReleaseFuncReturns :: woken w)
  end.

(** ** Interleavings *)

Inductive event : Type :=
| CallAcquire (g : goroutine) (ctx : Context) (order : pollorder)
| ContextDone (g : goroutine)
| CallRelease
| CallReleaseFunc (f : ReleaseFunc).

Definition step (sem : semaphore) (ev : event) : semaphore * list response :=
  match ev with
  | CallAcquire g ctx order =>
      let '(sem', r) := Acquire sem g ctx order in (sem', [r])
  | ContextDone g => AcquireDone sem g
  | CallRelease =>
      let '(sem', err, w) := Release sem in
      (sem', ReleaseReturns err :: woken w)
  | CallReleaseFunc f => call f sem
  end.

Fixpoint exec (sem : semaphore) (evs : list event) : semaphore :=
  match evs with
  | [] => sem
  | ev :: rest => exec (fst (step sem ev)) rest
  end.

Fixpoint trace (sem : semaphore) (evs : list event) : list response :=
  match evs with
  | [] => []
  | ev :: rest => snd (step sem ev) ++ trace (fst (step sem ev)) rest
  end.

(** One sequential call of [Acquire] with [context.Background()], made by
    the goroutine and with the poll order given. *)
Definition acquire_event (c : goroutine * pollorder) : event :=
  CallAcquire (fst c) Background (snd c).

Definition granted (c : goroutine * pollorder) : response :=
  AcquireReturns (fst c) releaser None.

(** The states a semaphore built by [New] can be in. *)
Definition reachable (sem : semaphore) : Prop :=
  exists capacity sem0 evs, New capacity = Ok sem0 /\ exec sem0 evs = sem.

(** What holds of the channel in every such state: the buffer is within
    its bounds, and senders only wait on a full buffer. *)
Definition chan_inv (sem : semaphore) : Prop :=
  0 <= qcount sem <= dataqsiz sem /\
  (sendq sem <> [] -> qcount sem = dataqsiz sem).

(** ** Counting what an interleaving did *)

(** A successful return of [Acquire]. *)
Definition is_grant (r : response) : bool :=
  match r with
  | AcquireReturns _ _ None => true
  | _ => false
  end.

(** A return of [Release] without an error. *)
Definition is_return (r : response) : bool :=
  match r with
  | ReleaseReturns None => true
  | _ => false
  end.

(** A call of the capability [releaser(sem)], whose error nobody sees. *)
Definition is_capability_call (ev : event) : bool :=
  match ev with
  | CallReleaseFunc releaser => true
  | _ => false
  end.

Definition count {A : Type} (p : A -> bool) (l : list A) : Z :=
  Z.of_nat (length (filter p l)).

(** A goroutine suspended in [Acquire], and one whose wait was cut short by
    its context. *)
Definition suspended (c : goroutine * pollorder) : response :=
  AcquireSuspends (fst c).

Definition timed_out (c : goroutine * pollorder) : response :=
  AcquireReturns (fst c) nothing (Some errTimeout).

(** The goroutine of a call gives up waiting. *)
Definition done_event (c : goroutine * pollorder) : event :=
  ContextDone (fst c).

(** A call that gives a slot back, through [Release] or through the
    capability. *)
Definition is_release_call (ev : event) : bool :=
  match ev with
  | CallRelease | CallReleaseFunc releaser => true
  | _ => false
  end.

(** A call of [Acquire] by the goroutine [g], and a return of [Acquire]
    to it. *)
Definition is_call_of (g : goroutine) (ev : event) : bool :=
  match ev with
  | CallAcquire g' _ _ => Z.eqb g' g
  | _ => false
  end.

Definition is_return_to (g : goroutine) (r : response) : bool :=
  match r with
  | AcquireReturns g' _ _ => Z.eqb g' g
  | _ => false
  end.

(** How many entries the goroutine [g] has in a wait queue. *)
Definition entries (g : goroutine) (q : list goroutine) : Z :=
  count (fun h => Z.eqb h g) q.

(** ** Closing the channel: [Flush] of the test file *)

(** How a piece of sequential code ends: it returns, it panics, or it
    waits for ever on a channel nobody else will use.  [OutOfFuel] is for
    the loops below that count their turns down, and is never their
    answer (see [drain_total]). *)
Inductive outcome (A : Type) : Type :=
| Returns (a : A)
| Panics (msg : string)
| Blocks
| OutOfFuel.
Arguments Returns {A} a.
Arguments Panics {A} msg.
Arguments Blocks {A}.
Arguments OutOfFuel {A}.

(** The channel of a semaphore together with the flag [close] sets. *)
Record channel : Type := mkChannel {
  chan : semaphore;
  closed : bool
}.

(** [close(sem)].  Closing twice panics.  Every goroutine parked in the
    [select] of [Acquire] is released from the queue and panics in its turn
    with "send on closed channel"; they are the second component. *)
Definition close (c : channel) : result (channel * list goroutine) :=
  if closed c then Panic "close of closed channel"
  else Ok (mkChannel (mkSem (dataqsiz (chan c)) (qcount (chan c)) []) true,
           sendq (chan c)).

(** One receive, up to the point where the run time either has an answer
    or would have to park the receiver. *)
Inductive received : Type :=
| Value (c : channel) (w : option goroutine)
| NoMore
| Waits.

Definition chanrecv (c : channel) : received :=
  if closed c && (qcount (chan c) =? 0) then NoMore
  else
    match sendq (chan c) with
    | g :: waiting =>
        Value (mkChannel (mkSem (dataqsiz (chan c)) (qcount (chan c)) waiting)
                 (closed c)) (Some g)
    | [] =>
        if 0 <? qcount (chan c)
        then Value (mkChannel (bufrecv (chan c)) (closed c)) None
        else Waits
    end.

(** [Release] on a channel that may be closed: the receive of a closed
    and empty channel proceeds, with the zero value. *)
Definition Release_chan (c : channel)
    : channel * option error * option goroutine :=
  match chanrecv c with
  | Value c' w => (c', None, w)
  | NoMore => (c, None, None)
  | Waits => (c, Some errEmpty, None)
  end.

(** [Acquire] on a channel that may be closed: as soon as [select] looks
    at the send case of a closed channel it panics. *)
Definition Acquire_chan (c : channel) (g : goroutine) (ctx : Context)
    (order : pollorder) : outcome (channel * response) :=
  if closed c then
    match order with
    | SendFirst => Panics "send on closed channel"
    | DoneFirst =>
        if Done ctx
        then Returns (c, AcquireReturns g nothing (Some errTimeout))
        else Panics "send on closed channel"
    end
  else
    let '(sem', r) := Acquire (chan c) g ctx order in
    Returns (mkChannel sem' false, r).

(** [for range sem {}]: receive until the channel is closed and empty.
    The second component collects the goroutines whose [Acquire] the loop
    completes. *)
Fixpoint drain (fuel : nat) (c : channel) (served : list goroutine)
    : outcome (channel * list goroutine) :=
  match fuel with
  | O => OutOfFuel
  | S fuel' =>
      match chanrecv c with
      | Value c' w =>
          drain fuel' c'
            (served ++ match w with Some g => [g] | None => [] end)
      | NoMore => Returns (c, served)
      | Waits => Blocks
      end
  end.

(** Every turn of the loop takes one goroutine from the queue or one
    element from the buffer, so this many turns are always enough. *)
Definition turns (c : channel) : nat :=
  S (length (sendq (chan c)) + Z.to_nat (qcount (chan c))).

(** [func (sem semaphore) Flush() { close(sem); for range sem {} }].
    Returns the channel and the goroutines that [close] made panic. *)
Definition Flush (c : channel) : outcome (channel * list goroutine) :=
  match close c with
  | Panic msg => Panics msg
  | Ok (c', panicking) =>
      match drain (turns c') c' [] with
      | Returns (c'', _) => Returns (c'', panicking)
      | Panics msg => Panics msg
      | Blocks => Blocks
      | OutOfFuel => OutOfFuel
      end
  end.

(** ** The benchmarks: one goroutine alone with the semaphore *)

Definition bind {A B : Type} (m : outcome A) (k : A -> outcome B)
    : outcome B :=
  match m with
  | Returns a => k a
  | Panics msg => Panics msg
  | Blocks => Blocks
  | OutOfFuel => OutOfFuel
  end.

Notation "'do' x <- m ; k" := (bind m (fun x => k))
  (at level 10, x name, m at level 100, k at level 200).

(** [sem.Acquire(context.Background())] in a goroutine that is alone with
    the semaphore: if the call is suspended nothing will ever end the
    wait. *)
Definition Acquire_alone (sem : semaphore) (order : pollorder)
    : outcome (semaphore * ReleaseFunc * option error) :=
  match Acquire sem 0 Background order with
  | (sem', AcquireReturns _ release err) => Returns (sem', release, err)
  | _ => Blocks
  end.

(** [for i := 0; i < n; i++ { body }] for a bound the body does not
    change; [i] is the value of the loop variable. *)
Fixpoint for_loop {S : Type} (n : nat) (i : Z) (body : Z -> S -> outcome S)
    (s : S) : outcome S :=
  match n with
  | O => Returns s
  | S n' => do s' <- body i s; for_loop n' (i + 1) body s'
  end.

(** The deferred [sem.(semaphore).Flush()], run when the function returns
    with the failures [errors] reported so far. *)
Definition deferred_Flush {R : Type} (sem : semaphore) (errors : R)
    : outcome R :=
  do _ <- Flush (mkChannel sem false); Returns errors.

(** [BenchmarkSemaphore_Acquire] with [b.N = bN]; [order_at i] is the
    poll order the run time draws in turn [i] of the loop.  The result is
    what [b.Error] was called with. *)
Definition BenchmarkSemaphore_Acquire (bN : Z) (order_at : Z -> pollorder)
    : outcome (list string) :=
  match New bN with
  | Panic msg => Panics msg
  | Ok sem =>
      do sem' <- for_loop (Z.to_nat bN) 0
                (fun i s => do r <- Acquire_alone s (order_at i);
                            Returns (fst (fst r)))
                sem;
      deferred_Flush sem'
        (if Occupied sem' =? Capacity sem' then []
         else ["expected full filled semaphore"%string])
  end.

(** [BenchmarkSemaphore_Acquire_Release]. *)
Definition BenchmarkSemaphore_Acquire_Release (bN : Z)
    (order_at : Z -> pollorder) : outcome (list string) :=
  match New bN with
  | Panic msg => Panics msg
  | Ok sem =>
      do sem' <- for_loop (Z.to_nat bN) 0
                (fun i s => do r <- Acquire_alone s (order_at i);
                            Returns (fst (fst (Release (fst (fst r))))))
                sem;
      deferred_Flush sem'
        (if Occupied sem' =? 0 then []
         else ["expected empty semaphore"%string])
  end.

(** ** [TestSemaphore_Concurrently]: one worker goroutine per slot *)

(** [atomic.AddInt32]: the sum wraps around in 32 bits. *)
Definition wrap32 (z : Z) : Z := (z + 2 ^ 31) mod 2 ^ 32 - 2 ^ 31.
Definition AddInt32 (addr delta : Z) : Z := wrap32 (addr + delta).

(** Where a worker is in its function: about to call [Acquire] (the
    channel [start] is closed before any of them runs on); suspended in the
    [select] of [Acquire]; back from [Acquire] with [release] deferred and
    the counter still to add to; about to return, with the deferred calls
    still to run; gone. *)
Inductive pc : Type :=
| AtAcquire
| InAcquire
| AtAdd (release : ReleaseFunc)
| AtReturn (release : ReleaseFunc)
| Exited.

(** What the test reports through [t.Errorf]. *)
Inductive failure : Type :=
| UnexpectedError (err : error)
| WrongCounter (expected obtained : Z)
| StillOccupied (obtained : Z).

Record test : Type := mkTest {
  t_sem : semaphore;
  counter : Z;
  workers : list pc;
  failures : list failure
}.

Fixpoint set_pc (i : nat) (v : pc) (l : list pc) : list pc :=
  match l, i with
  | [], _ => []
  | _ :: t, O => v :: t
  | h :: t, S i' => h :: set_pc i' v t
  end.

(** The workers whose suspended [Acquire] a receive has completed go on
    after the call, with the capability it returned. *)
Definition resume (rs : list response) (l : list pc) : list pc :=
  fold_left
    (fun l r =>
       match r with
       | AcquireReturns g release None => set_pc (Z.to_nat g) (AtAdd release) l
       | _ => l
       end)
    rs l.

(** Worker [i] runs up to its next action on shared state; [order] is the
    poll order the run time draws if that action is the [select].  A worker
    that is suspended or gone does nothing. *)
Definition work (i : nat) (order : pollorder) (t : test) : test :=
  match nth_error (workers t) i with
  | Some AtAcquire =>
      match Acquire (t_sem t) (Z.of_nat i) Background order with
      | (sem', AcquireReturns _ release None) =>
          mkTest sem' (counter t) (set_pc i (AtAdd release) (workers t))
            (failures t)
      | (sem', AcquireReturns _ _ (Some err)) =>
          mkTest sem' (counter t) (set_pc i Exited (workers t))
            (failures t ++ [UnexpectedError err])
      | (sem', _) =>
          mkTest sem' (counter t) (set_pc i InAcquire (workers t))
            (failures t)
      end
  | Some (AtAdd release) =>
      mkTest (t_sem t) (AddInt32 (counter t) 1)
        (set_pc i (AtReturn release) (workers t)) (failures t)
  | Some (AtReturn release) =>
      let '(sem', rs) := call release (t_sem t) in
      mkTest sem' (counter t) (resume rs (set_pc i Exited (workers t)))
        (failures t)
  | _ => t
  end.

Definition is_exited (p : pc) : bool :=
  match p with
  | Exited => true
  | _ => false
  end.

Definition run_workers (schedule : list (nat * pollorder)) (t : test)
    : test :=
  fold_left (fun t s => work (fst s) (snd s) t) schedule t.

(** The test, for [runtime.GOMAXPROCS(0) = procs] and the interleaving of
    the workers given by [schedule].  The capacity is
    [int(math.Max(2.0, float64(procs)))], which is [Z.max 2 procs] as long
    as [procs] converts to [float64] and back exactly.  [wg.Wait()] returns
    once every worker is gone; if the schedule ends before that, the test is
    still waiting. *)
Definition TestSemaphore_Concurrently (procs : Z)
    (schedule : list (nat * pollorder)) : outcome (list failure) :=
  match New (Z.max 2 procs) with
  | Panic msg => Panics msg
  | Ok sem =>
      let t := run_workers schedule
                 (mkTest sem 0 (repeat AtAcquire (Z.to_nat (Capacity sem))) [])
      in
      if forallb is_exited (workers t) then
        deferred_Flush (t_sem t)
          (failures t
           ++ (if counter t =? Capacity (t_sem t) then []
               else [WrongCounter (Capacity (t_sem t)) (counter t)])
           ++ (if Occupied (t_sem t) =? 0 then []
               else [StillOccupied (Occupied (t_sem t))]))
      else Blocks
  end.

(** How often the schedule runs worker [i]. *)
Definition visits (i : nat) (schedule : list (nat * pollorder)) : nat :=
  length (filter (fun s => Nat.eqb (fst s) i) schedule).

(** A worker that holds a slot, one that has added to the counter, and how
    far a worker has got. *)
Definition holding (p : pc) : bool :=
  match p with
  | AtAdd _ | AtReturn _ => true
  | _ => false
  end.

Definition counted (p : pc) : bool :=
  match p with
  | AtReturn _ | Exited => true
  | _ => false
  end.

Definition rank (p : pc) : nat :=
  match p with
  | AtAcquire | InAcquire => 0
  | AtAdd _ => 1
  | AtReturn _ => 2
  | Exited => 3
  end.

Definition rank_at (i : nat) (l : list pc) : nat :=
  match nth_error l i with
  | Some p => rank p
  | None => 3
  end.

(** No worker waits, and every worker back from [Acquire] has the
    capability [releaser(sem)]. *)
Definition running (p : pc) : bool :=
  match p with
  | InAcquire | AtAdd nothing | AtReturn nothing => false
  | _ => true
  end.

(** What holds between the steps of the workers of a test with [n]
    workers. *)
Definition test_inv (n : Z) (t : test) : Prop :=
  Z.of_nat (length (workers t)) = n /\
  t_sem t = mkSem n (count holding (workers t)) [] /\
  counter t = count counted (workers t) /\
  failures t = [] /\
  forallb running (workers t) = true.

(** * Properties *)

(** ** The channel invariant *)

Ltac unfold_ops :=
  unfold step, call, Acquire, AcquireDone, Release, woken, can_send,
    bufsend, bufrecv, park, Capacity, Occupied in *.

Lemma dequeue_nil (g : goroutine) (q : list goroutine) :
  q = [] -> dequeue g q = [].
Proof. intros ->. reflexivity. Qed.

Lemma step_dataqsiz (sem : semaphore) (ev : event) :
  dataqsiz (fst (step sem ev)) = dataqsiz sem.
Proof.
  destruct ev as [g ctx [|] | g | | [|]]; unfold_ops;
    repeat match goal with
           | |- context [if ?b then _ else _] => destruct b
           | |- context [match sendq ?s with _ => _ end] => destruct (sendq s)
           end; reflexivity.
Qed.

Lemma exec_dataqsiz (evs : list event) :
  forall sem, dataqsiz (exec sem evs) = dataqsiz sem.
Proof.
  induction evs as [|ev rest IH]; intro sem; simpl.
  - reflexivity.
  - rewrite IH. apply step_dataqsiz.
Qed.

Lemma Acquire_inv (sem : semaphore) g ctx order :
  chan_inv sem -> chan_inv (fst (Acquire sem g ctx order)).
Proof.
  intros [Hb Hq]. unfold Acquire, can_send.
  destruct (Z.ltb_spec (qcount sem) (dataqsiz sem)) as [Hlt|Hge];
    destruct order, (Done ctx); simpl; try (split; assumption).
  all: unfold chan_inv; simpl; split; try lia.
  all: try (intro Hne; apply Hq in Hne; lia).
Qed.

Lemma AcquireDone_inv (sem : semaphore) g :
  chan_inv sem -> chan_inv (fst (AcquireDone sem g)).
Proof.
  intros [Hb Hq]. unfold AcquireDone.
  destruct (parked g (sendq sem)); simpl; [|split; assumption].
  split; simpl; [assumption|].
  intro Hne. apply Hq. intro Hnil. apply Hne. now apply dequeue_nil.
Qed.

Lemma Release_inv (sem : semaphore) :
  chan_inv sem -> chan_inv (fst (fst (Release sem))).
Proof.
  intros [Hb Hq]. unfold Release, bufrecv.
  destruct (sendq sem) as [|g waiting] eqn:Hs.
  - destruct (Z.ltb_spec 0 (qcount sem)); simpl.
    + split; simpl; [lia|congruence].
    + split; [assumption|]. rewrite Hs. congruence.
  - split; simpl; [assumption|].
    intros _. apply Hq. discriminate.
Qed.

Lemma step_inv (sem : semaphore) (ev : event) :
  chan_inv sem -> chan_inv (fst (step sem ev)).
Proof.
  intro H. destruct ev as [g ctx order | g | | [|]]; simpl.
  - pose proof (Acquire_inv sem g ctx order H) as HA.
    destruct (Acquire sem g ctx order). exact HA.
  - now apply AcquireDone_inv.
  - pose proof (Release_inv sem H) as HR.
    destruct (Release sem) as [[sem' err] w]. exact HR.
  - exact H.
  - pose proof (Release_inv sem H) as HR.
    destruct (Release sem) as [[sem' err] w]. exact HR.
Qed.

Lemma exec_inv (evs : list event) :
  forall sem, chan_inv sem -> chan_inv (exec sem evs).
Proof.
  induction evs as [|ev rest IH]; intros sem H; simpl.
  - exact H.
  - apply IH. now apply step_inv.
Qed.

Lemma New_Ok (capacity : Z) (sem0 : semaphore) :
  New capacity = Ok sem0 -> 0 <= capacity /\ sem0 = mkSem capacity 0 [].
Proof.
  unfold New, make. destruct (Z.ltb_spec capacity 0) as [Hneg|Hpos].
  - discriminate.
  - intro HOk. injection HOk as <-. split; [assumption|reflexivity].
Qed.

Lemma New_inv (capacity : Z) (sem0 : semaphore) :
  New capacity = Ok sem0 -> chan_inv sem0.
Proof.
  intro H. apply New_Ok in H as [Hc ->].
  split; simpl; [lia|congruence].
Qed.

Lemma reachable_inv (sem : semaphore) : reachable sem -> chan_inv sem.
Proof.
  intros (capacity & sem0 & evs & HN & <-).
  apply exec_inv. eapply New_inv; eassumption.
Qed.

Lemma exec_app (evs1 evs2 : list event) :
  forall sem, exec sem (evs1 ++ evs2) = exec (exec sem evs1) evs2.
Proof.
  induction evs1 as [|ev rest IH]; intro sem; simpl; [reflexivity|apply IH].
Qed.

Lemma reachable_step (sem : semaphore) (ev : event) :
  reachable sem -> reachable (fst (step sem ev)).
Proof.
  intros (capacity & sem0 & evs & HN & <-).
  exists capacity, sem0, (evs ++ [ev]). split; [assumption|].
  rewrite exec_app. reflexivity.
Qed.



(** ** Construction and the health checks *)

(** C9.  [New] returns a semaphore for every capacity that is not negative,
    zero included: its capacity is the one asked for and it is empty, with
    nobody waiting.  A negative capacity is refused by a panic of [make],
    and that is the only way [New] fails: whenever it returns, what it
    returns is a well-formed semaphore. *)
Theorem New_nonnegative_capacity (capacity : Z) :
  (0 <= capacity ->
   exists sem, New capacity = Ok sem /\ Capacity sem = capacity /\
               Occupied sem = 0 /\ sendq sem = [] /\ chan_inv sem) /\
  (capacity < 0 -> New capacity = Panic "makechan: size out of range") /\
  ((exists msg, New capacity = Panic msg) <-> capacity < 0).
Proof.
  unfold New, make.
  destruct (Z.ltb_spec capacity 0) as [Hneg|Hpos].
  - split; [lia|]. split; [reflexivity|].
    split; [intros _; assumption|]. intros _. eexists. reflexivity.
  - split.
    + intros _. exists (mkSem capacity 0 []).
      repeat split; simpl; try lia; congruence.
    + split; [lia|]. split; [|lia]. intros [msg Hmsg]. discriminate.
Qed.

Lemma New_nonnegative_capacity_witness :
  (exists sem, New 0 = Ok sem /\ Capacity sem = 0 /\
               Occupied sem = 0 /\ sendq sem = [] /\ chan_inv sem) /\
  New (-1) = Panic "makechan: size out of range".
Proof.
  split.
  - apply (proj1 (New_nonnegative_capacity 0)). lia.
  - apply (proj1 (proj2 (New_nonnegative_capacity (-1)))). lia.
Defined.

(** C8.  [Capacity] answers with the capacity given to [New], and keeps
    answering with it after any interleaving of calls of [Acquire],
    [Release] and the release capabilities, finished or still suspended. *)
Theorem Capacity_immutable (capacity : Z) (sem0 : semaphore)
    (evs : list event) :
  New capacity = Ok sem0 ->
  Capacity sem0 = capacity /\ Capacity (exec sem0 evs) = capacity.
Proof.
  intro HN. apply New_Ok in HN as [_ ->]. unfold Capacity. split.
  - reflexivity.
  - rewrite exec_dataqsiz. reflexivity.
Qed.

Lemma Capacity_immutable_witness :
  Capacity (mkSem 7 0 []) = 7 /\
  Capacity (exec (mkSem 7 0 [])
              [CallAcquire 1 Background SendFirst; CallRelease;
               CallAcquire 2 (cancel Background) DoneFirst]) = 7.
Proof.
  apply (Capacity_immutable 7). reflexivity.
Defined.

(** C2.  On a semaphore built by [New] with a capacity that is not negative,
    [0 <= Occupied() <= Capacity()] holds after every interleaving of
    calls. *)
Theorem Occupied_bounds (capacity : Z) (sem0 : semaphore)
    (evs : list event) :
  0 <= capacity ->
  New capacity = Ok sem0 ->
  0 <= Occupied (exec sem0 evs) <= Capacity (exec sem0 evs).
Proof.
  intros _ HN. unfold Occupied, Capacity.
  apply (exec_inv evs sem0). eapply New_inv. eassumption.
Qed.

Lemma Occupied_bounds_witness :
  let evs := [CallAcquire 1 Background SendFirst;
              CallAcquire 2 Background DoneFirst;
              CallAcquire 3 Background SendFirst;
              CallRelease; ContextDone 3; CallReleaseFunc releaser;
              CallReleaseFunc releaser; CallRelease] in
  0 <= Occupied (exec (mkSem 2 0 []) evs) <= Capacity (exec (mkSem 2 0 []) evs).
Proof.
  apply (Occupied_bounds 2); [lia|reflexivity].
Defined.

(** ** Cancellation *)

(** Every return of [Acquire] with an error, taken at the call or after a
    wait: which error it is, which capability comes with it, and what the
    step did to the channel. *)
Lemma Acquire_error_response (sem : semaphore) (ev : event)
    (g : goroutine) (release : ReleaseFunc) (e : error) :
  In (AcquireReturns g release (Some e)) (snd (step sem ev)) ->
  e = errTimeout /\ release = nothing /\
  qcount (fst (step sem ev)) = qcount sem.
Proof.
  destruct ev as [g' ctx order | g' | | f]; simpl.
  - unfold Acquire.
    destruct order, (can_send sem), (Done ctx); simpl;
      intros [H|[]]; try discriminate; injection H as _ <- <-; auto.
  - unfold AcquireDone. destruct (parked g' (sendq sem)); simpl.
    + intros [H|[]]. injection H as _ <- <-. auto.
    + intros [].
  - unfold Release.
    destruct (sendq sem); [destruct (0 <? qcount sem)|]; simpl;
      intros [H|H]; try discriminate; try contradiction.
    destruct H as [H|[]]. discriminate.
  - destruct f; simpl.
    + intros [H|[]]. discriminate.
    + unfold Release.
      destruct (sendq sem); [destruct (0 <? qcount sem)|]; simpl;
        intros [H|H]; try discriminate; try contradiction.
      destruct H as [H|[]]. discriminate.
Qed.

Lemma call_nothing_iter (n : nat) (sem : semaphore) :
  Nat.iter n (fun s => fst (call nothing s)) sem = sem.
Proof.
  induction n as [|n IH]; [reflexivity|].
  rewrite Nat.iter_succ, IH. reflexivity.
Qed.

(** C1.  Whenever a step makes [Acquire] return [errTimeout] (at the call,
    or to a goroutine that was suspended in it), that step leaves
    [Occupied()] as it was and the capability returned with the error is
    [nothing], which leaves any semaphore as it is however often it is
    called.  The step that suspended the call, if there was one, did not
    change [Occupied()] either. *)
Theorem Acquire_timeout_holds_no_slot (sem : semaphore) (ev : event)
    (g : goroutine) (release : ReleaseFunc) :
  In (AcquireReturns g release (Some errTimeout)) (snd (step sem ev)) ->
  Occupied (fst (step sem ev)) = Occupied sem /\
  release = nothing /\
  (forall (n : nat) (s : semaphore),
      Nat.iter n (fun s' => fst (call release s')) s = s) /\
  (forall (s : semaphore) (ctx : Context) (order : pollorder),
      snd (Acquire s g ctx order) = AcquireSuspends g ->
      Occupied (fst (Acquire s g ctx order)) = Occupied s).
Proof.
  intro H. apply Acquire_error_response in H as (_ & -> & Hq).
  split; [exact Hq|]. split; [reflexivity|]. split.
  - intros n s. apply call_nothing_iter.
  - intros s ctx order. unfold Acquire, Occupied.
    destruct order, (can_send s), (Done ctx); simpl;
      try discriminate; reflexivity.
Qed.

Lemma Acquire_timeout_holds_no_slot_witness :
  let sem := mkSem 1 1 [5] in
  Occupied (fst (step sem (ContextDone 5))) = Occupied sem /\
  nothing = nothing /\
  (forall (n : nat) (s : semaphore),
      Nat.iter n (fun s' => fst (call nothing s')) s = s) /\
  (forall (s : semaphore) (ctx : Context) (order : pollorder),
      snd (Acquire s 5 ctx order) = AcquireSuspends 5 ->
      Occupied (fst (Acquire s 5 ctx order)) = Occupied s).
Proof.
  apply (Acquire_timeout_holds_no_slot (mkSem 1 1 [5]) (ContextDone 5) 5).
  simpl. left. reflexivity.
Defined.

(** C10.  The error of [Acquire] is always the one value [errTimeout],
    whose message is "operation timeout": it is none of the errors the
    context reports, and two calls that differ only in why (or how) their
    context is done return the same. *)
Theorem Acquire_error_is_errTimeout (sem : semaphore) (ev : event)
    (g : goroutine) (release : ReleaseFunc) (e : error) :
  In (AcquireReturns g release (Some e)) (snd (step sem ev)) ->
  e = errTimeout /\
  Error e = "operation timeout"%string /\
  (forall ctx : Context, Err ctx <> Some e) /\
  (forall (s : semaphore) (g' : goroutine) (order : pollorder)
          (ctx1 ctx2 : Context),
      Done ctx1 = true -> Done ctx2 = true ->
      Acquire s g' ctx1 order = Acquire s g' ctx2 order).
Proof.
  intro H. apply Acquire_error_response in H as (-> & _ & _).
  split; [reflexivity|]. split; [reflexivity|]. split.
  - intros [|[|]]; simpl; discriminate.
  - intros s g' order ctx1 ctx2 H1 H2. unfold Acquire.
    rewrite H1, H2. reflexivity.
Qed.

Lemma Acquire_error_is_errTimeout_witness :
  errTimeout = errTimeout /\
  Error errTimeout = "operation timeout"%string /\
  (forall ctx : Context, Err ctx <> Some errTimeout) /\
  (forall (s : semaphore) (g' : goroutine) (order : pollorder)
          (ctx1 ctx2 : Context),
      Done ctx1 = true -> Done ctx2 = true ->
      Acquire s g' ctx1 order = Acquire s g' ctx2 order).
Proof.
  apply (Acquire_error_is_errTimeout (mkSem 0 0 [])
           (CallAcquire 1 (WithTimeout Background 0) SendFirst) 1 nothing).
  simpl. left. reflexivity.
Defined.

(** C5, as the specification states it, fails: with a free slot and a
    context that is already done, both cases of the [select] are ready, and
    when the send is polled first [Acquire] takes the slot and returns no
    error. *)
Lemma Acquire_done_context_may_grant :
  New 1 = Ok (mkSem 1 0 []) /\
  Done (WithTimeout Background 0) = true /\
  Acquire (mkSem 1 0 []) 1 (WithTimeout Background 0) SendFirst
  = (mkSem 1 1 [], AcquireReturns 1 releaser None) /\
  Occupied (mkSem 1 1 []) = Occupied (mkSem 1 0 []) + 1.
Proof. repeat split. Qed.

(** C5, amended.  A call of [Acquire] whose context is already done returns
    at once, it is never suspended.  When no slot is free it returns
    [nothing] and [errTimeout] and leaves the semaphore as it is; so it does
    with a free slot when [select] polls the context first.  With a free
    slot and the send polled first it takes the slot. *)
Theorem Acquire_done_context (sem : semaphore) (g : goroutine)
    (ctx : Context) (order : pollorder) :
  Done ctx = true ->
  (forall g' : goroutine, snd (Acquire sem g ctx order) <> AcquireSuspends g') /\
  (Capacity sem <= Occupied sem \/ order = DoneFirst ->
   Acquire sem g ctx order = (sem, AcquireReturns g nothing (Some errTimeout))) /\
  (Occupied sem < Capacity sem -> order = SendFirst ->
   Acquire sem g ctx order = (bufsend sem, AcquireReturns g releaser None)).
Proof.
  intro HD. unfold Acquire, can_send, Capacity, Occupied. rewrite HD.
  destruct (Z.ltb_spec (qcount sem) (dataqsiz sem)) as [Hlt|Hge];
    destruct order; repeat split; try discriminate;
    try reflexivity; try lia.
  intros [Hc|Ho]; [lia|discriminate].
Qed.

Lemma Acquire_done_context_witness :
  (forall g' : goroutine,
      snd (Acquire (mkSem 1 1 []) 2 (cancel Background) SendFirst)
      <> AcquireSuspends g') /\
  (Capacity (mkSem 1 1 []) <= Occupied (mkSem 1 1 []) \/ SendFirst = DoneFirst ->
   Acquire (mkSem 1 1 []) 2 (cancel Background) SendFirst
   = (mkSem 1 1 [], AcquireReturns 2 nothing (Some errTimeout))) /\
  (Occupied (mkSem 1 1 []) < Capacity (mkSem 1 1 []) -> SendFirst = SendFirst ->
   Acquire (mkSem 1 1 []) 2 (cancel Background) SendFirst
   = (bufsend (mkSem 1 1 []), AcquireReturns 2 releaser None)).
Proof.
  apply (Acquire_done_context (mkSem 1 1 []) 2 (cancel Background) SendFirst).
  reflexivity.
Defined.

(** ** Release *)





(** ** Capacity zero *)




(** ** Filling and the round trip *)

Lemma Acquire_room (sem : semaphore) (g : goroutine) (order : pollorder) :
  qcount sem < dataqsiz sem ->
  Acquire sem g Background order = (bufsend sem, AcquireReturns g releaser None).
Proof.
  intro H. unfold Acquire, can_send.
  destruct (Z.ltb_spec (qcount sem) (dataqsiz sem)); [|lia].
  destruct order; reflexivity.
Qed.

Lemma fill_from (calls : list (goroutine * pollorder)) :
  forall sem : semaphore,
    qcount sem + Z.of_nat (length calls) <= dataqsiz sem ->
    trace sem (map acquire_event calls) = map granted calls /\
    exec sem (map acquire_event calls)
    = mkSem (dataqsiz sem) (qcount sem + Z.of_nat (length calls)) (sendq sem).
Proof.
  induction calls as [|c rest IH]; intros sem Hroom.
  - simpl. rewrite Z.add_0_r. destruct sem; split; reflexivity.
  - cbn [map trace exec step acquire_event length] in *.
    rewrite Acquire_room by lia. cbn [fst snd].
    destruct (IH (bufsend sem)) as [Ht He].
    { unfold bufsend; simpl. lia. }
    rewrite Ht, He. split; [reflexivity|].
    unfold bufsend; simpl. f_equal. lia.
Qed.

(** C4.  On a fresh semaphore of capacity [capacity], any [k <= capacity]
    sequential calls of [Acquire] with a context that never fires all
    return [releaser(sem)] and no error, and [Occupied()] is [k] after
    them: it grows by exactly 1 with each call and is [capacity] after
    [capacity] calls. *)
Theorem linear_fill (capacity : Z) (sem0 : semaphore)
    (calls : list (goroutine * pollorder)) :
  New capacity = Ok sem0 ->
  Z.of_nat (length calls) <= capacity ->
  trace sem0 (map acquire_event calls) = map granted calls /\
  Occupied (exec sem0 (map acquire_event calls)) = Z.of_nat (length calls) /\
  (forall c : goroutine * pollorder,
      Z.of_nat (length calls) < capacity ->
      snd (step (exec sem0 (map acquire_event calls)) (acquire_event c))
      = [granted c] /\
      Occupied (fst (step (exec sem0 (map acquire_event calls)) (acquire_event c)))
      = Occupied (exec sem0 (map acquire_event calls)) + 1) /\
  (Z.of_nat (length calls) = capacity ->
   Occupied (exec sem0 (map acquire_event calls)) = Capacity sem0).
Proof.
  intros HN Hlen. apply New_Ok in HN as [_ ->].
  destruct (fill_from calls (mkSem capacity 0 [])) as [Ht He];
    [simpl; lia|].
  rewrite He. cbn [dataqsiz qcount sendq Occupied Capacity].
  split; [exact Ht|]. split; [lia|]. split; [|lia].
  intros c Hc. cbn [step acquire_event].
  rewrite Acquire_room by (simpl; lia).
  split; [reflexivity|]. unfold bufsend; simpl. reflexivity.
Qed.

Lemma linear_fill_witness :
  let calls := [(1, SendFirst); (2, DoneFirst); (3, SendFirst)] in
  trace (mkSem 3 0 []) (map acquire_event calls) = map granted calls /\
  Occupied (exec (mkSem 3 0 []) (map acquire_event calls)) = 3.
Proof.
  pose proof (linear_fill 3 (mkSem 3 0 [])
                [(1, SendFirst); (2, DoneFirst); (3, SendFirst)]
                eq_refl ltac:(simpl; lia)) as H.
  split; [exact (proj1 H)|exact (proj1 (proj2 H))].
Defined.

(** The call after those suspends: on a full semaphore [Acquire] with a
    live context parks the caller and leaves [Occupied()] alone. *)
Lemma Acquire_full_suspends (sem : semaphore) (g : goroutine)
    (order : pollorder) :
  dataqsiz sem <= qcount sem ->
  Acquire sem g Background order = (park g sem, AcquireSuspends g).
Proof.
  intro H. unfold Acquire, can_send.
  destruct (Z.ltb_spec (qcount sem) (dataqsiz sem)); [lia|].
  destruct order; reflexivity.
Qed.

(** C7.  When a call of [Acquire] returns successfully from a state the
    semaphore can reach, the capability it returns is [releaser(sem)], and
    calling it right away puts [Occupied()] (indeed the whole channel) back
    to what it was before the call.  The capability does what [Release]
    does to the channel and returns nothing, also when [Release] answers
    [errEmpty]. *)
Theorem Acquire_release_round_trip (sem sem' : semaphore) (g : goroutine)
    (ctx : Context) (order : pollorder) (release : ReleaseFunc) :
  reachable sem ->
  Acquire sem g ctx order = (sem', AcquireReturns g release None) ->
  release = releaser /\
  Occupied sem' = Occupied sem + 1 /\
  Occupied (fst (call release sem')) = Occupied sem /\
  call release sem' = (sem, [ReleaseFuncReturns]) /\
  (forall s : semaphore,
      fst (call releaser s) = fst (fst (Release s)) /\
      (snd (fst (Release s)) = Some errEmpty ->
       call releaser s = (s, [ReleaseFuncReturns]))).
Proof.
  intros HR HA. apply reachable_inv in HR as [Hb Hq].
  assert (Hshape : can_send sem = true /\ sem' = bufsend sem /\ release = releaser).
  { unfold Acquire in HA.
    destruct order, (can_send sem), (Done ctx); try discriminate;
      injection HA as <- <-; auto. }
  destruct Hshape as (Hc & -> & ->).
  unfold can_send in Hc. apply Z.ltb_lt in Hc.
  assert (Hs : sendq sem = []).
  { destruct (sendq sem) eqn:E; [reflexivity|].
    assert (qcount sem = dataqsiz sem) by (apply Hq; discriminate). lia. }
  assert (Hcall : call releaser (bufsend sem) = (sem, [ReleaseFuncReturns])).
  { unfold call, Release, bufsend, bufrecv; simpl. rewrite Hs.
    destruct (Z.ltb_spec 0 (qcount sem + 1)); [|lia]. simpl.
    destruct sem as [d q w]; simpl in *. subst w.
    do 2 f_equal. lia. }
  split; [reflexivity|]. split; [reflexivity|].
  split; [rewrite Hcall; reflexivity|]. split; [exact Hcall|].
  intro s. unfold call.
  destruct (Release s) as [[s' err] w] eqn:E. simpl. split; [reflexivity|].
  intros ->. unfold Release in E.
  destruct (sendq s); [destruct (0 <? qcount s)|]; try discriminate.
  injection E as <- <-. reflexivity.
Qed.

Lemma Acquire_release_round_trip_witness :
  let sem := mkSem 2 1 [] in
  releaser = releaser /\
  Occupied (bufsend sem) = Occupied sem + 1 /\
  Occupied (fst (call releaser (bufsend sem))) = Occupied sem /\
  call releaser (bufsend sem) = (sem, [ReleaseFuncReturns]) /\
  (forall s : semaphore,
      fst (call releaser s) = fst (fst (Release s)) /\
      (snd (fst (Release s)) = Some errEmpty ->
       call releaser s = (s, [ReleaseFuncReturns]))).
Proof.
  apply (Acquire_release_round_trip (mkSem 2 1 []) (bufsend (mkSem 2 1 []))
           7 Background SendFirst releaser).
  - exists 2, (mkSem 2 0 []), [CallAcquire 1 Background DoneFirst].
    split; reflexivity.
  - reflexivity.
Defined.

(** * Further properties of the package *)

(** ** Slot accounting *)

Lemma count_app {A : Type} (p : A -> bool) (l1 l2 : list A) :
  count p (l1 ++ l2) = count p l1 + count p l2.
Proof.
  unfold count. rewrite filter_app, length_app. lia.
Qed.

Lemma count_nonneg {A : Type} (p : A -> bool) (l : list A) : 0 <= count p l.
Proof. unfold count. lia. Qed.

Lemma count_single {A : Type} (p : A -> bool) (x : A) :
  count p [x] = if p x then 1 else 0.
Proof. unfold count. simpl. destruct (p x); reflexivity. Qed.

(** What one step does to [len(sem)], against what the callers of the
    step are told. *)
Lemma step_accounting (sem : semaphore) (ev : event) :
  let told := count is_grant (snd (step sem ev))
              - count is_return (snd (step sem ev)) in
  told - count is_capability_call [ev]
  <= qcount (fst (step sem ev)) - qcount sem <= told /\
  (is_capability_call ev = false ->
   qcount (fst (step sem ev)) - qcount sem = told).
Proof.
  destruct ev as [g ctx order | g | | [|]]; unfold_ops; unfold count;
    repeat match goal with
           | |- context [if ?b then _ else _] => destruct b
           | |- context [match sendq ?s with _ => _ end] => destruct (sendq s)
           | |- context [match ?o with SendFirst => _ | DoneFirst => _ end] =>
               destruct o
           end; simpl; split; try lia; try discriminate; intros _; lia.
Qed.

Lemma exec_accounting (evs : list event) :
  forall sem : semaphore,
    let told := count is_grant (trace sem evs)
                - count is_return (trace sem evs) in
    told - count is_capability_call evs
    <= qcount (exec sem evs) - qcount sem <= told /\
    (count is_capability_call evs = 0 ->
     qcount (exec sem evs) - qcount sem = told).
Proof.
  induction evs as [|ev rest IH]; intro sem.
  - simpl. unfold count; simpl. split; [lia|]. intros _. lia.
  - cbn [exec trace]. rewrite !count_app.
    change (ev :: rest) with ([ev] ++ rest). rewrite count_app.
    destruct (step_accounting sem ev) as [Hs Hs0].
    destruct (IH (fst (step sem ev))) as [Hr Hr0].
    cbv zeta in *. split; [lia|].
    intro Hc.
    pose proof (count_nonneg is_capability_call rest) as Hn.
    rewrite count_single in Hc.
    assert (Hev : is_capability_call ev = false).
    { destruct (is_capability_call ev); [lia|reflexivity]. }
    rewrite Hev in Hc.
    assert (Hrest : count is_capability_call rest = 0) by lia.
    specialize (Hs0 Hev). specialize (Hr0 Hrest). lia.
Qed.

(** X1.  Slots are accounted for.  After any interleaving on a semaphore
    built by [New], [Occupied()] is at most the number of successful
    returns of [Acquire] less the number of returns of [Release] without an
    error, and falls short of it by at most the number of calls of the
    capability [releaser(sem)]; without such calls it is exactly that
    difference.  So [Acquire] has never succeeded more than [capacity] times
    beyond the calls that gave a slot back. *)
Theorem slot_accounting (capacity : Z) (sem0 : semaphore)
    (evs : list event) :
  New capacity = Ok sem0 ->
  let grants := count is_grant (trace sem0 evs) in
  let returns := count is_return (trace sem0 evs) in
  let capability_calls := count is_capability_call evs in
  grants - returns - capability_calls <= Occupied (exec sem0 evs)
  <= grants - returns /\
  (capability_calls = 0 -> Occupied (exec sem0 evs) = grants - returns) /\
  grants <= capacity + returns + capability_calls /\
  returns <= grants.
Proof.
  intro HN.
  pose proof (exec_inv evs sem0 (New_inv capacity sem0 HN)) as [Hb _].
  pose proof (exec_dataqsiz evs sem0) as Hd.
  apply New_Ok in HN as [_ ->]. simpl in Hd.
  destruct (exec_accounting evs (mkSem capacity 0 [])) as [Ha Ha0].
  cbv zeta in *. simpl in Ha, Ha0. unfold Occupied.
  split; [lia|]. split; [intro Hc; specialize (Ha0 Hc); lia|].
  split; lia.
Qed.

Lemma slot_accounting_witness :
  let evs := [CallAcquire 1 Background SendFirst;
              CallAcquire 2 Background DoneFirst;
              CallRelease; CallReleaseFunc releaser; CallRelease] in
  let grants := count is_grant (trace (mkSem 1 0 []) evs) in
  let returns := count is_return (trace (mkSem 1 0 []) evs) in
  let capability_calls := count is_capability_call evs in
  grants - returns - capability_calls <= Occupied (exec (mkSem 1 0 []) evs)
  <= grants - returns /\
  (capability_calls = 0 -> Occupied (exec (mkSem 1 0 []) evs) = grants - returns) /\
  grants <= 1 + returns + capability_calls /\
  returns <= grants.
Proof.
  apply (slot_accounting 1 (mkSem 1 0 [])). reflexivity.
Defined.

(** ** Waiting *)

(** X2.  Nobody waits while a slot is free: in every state a semaphore can
    reach, if some [Acquire] is suspended then the semaphore is full, and
    any call of [Acquire] made with a live context at that moment is
    suspended too instead of overtaking the waiters. *)
Theorem suspended_only_when_full (sem : semaphore) :
  reachable sem ->
  sendq sem <> [] ->
  Occupied sem = Capacity sem /\
  (forall (g : goroutine) (order : pollorder),
      Acquire sem g Background order = (park g sem, AcquireSuspends g)).
Proof.
  intros HR Hw. apply reachable_inv in HR as [Hb Hq].
  specialize (Hq Hw). split; [exact Hq|].
  intros g order. unfold Acquire, can_send. rewrite Hq, Z.ltb_irrefl.
  destruct order; reflexivity.
Qed.

Lemma suspended_only_when_full_witness :
  Occupied (mkSem 1 1 [2]) = Capacity (mkSem 1 1 [2]) /\
  (forall (g : goroutine) (order : pollorder),
      Acquire (mkSem 1 1 [2]) g Background order
      = (park g (mkSem 1 1 [2]), AcquireSuspends g)).
Proof.
  apply (suspended_only_when_full (mkSem 1 1 [2])).
  - exists 1, (mkSem 1 0 []),
      [CallAcquire 1 Background SendFirst; CallAcquire 2 Background SendFirst].
    split; reflexivity.
  - discriminate.
Defined.

Lemma park_from (calls : list (goroutine * pollorder)) :
  forall sem : semaphore,
    dataqsiz sem <= qcount sem ->
    trace sem (map acquire_event calls) = map suspended calls /\
    exec sem (map acquire_event calls)
    = mkSem (dataqsiz sem) (qcount sem) (sendq sem ++ map fst calls).
Proof.
  induction calls as [|c rest IH]; intros sem Hfull.
  - simpl. rewrite app_nil_r. destruct sem; split; reflexivity.
  - cbn [map trace exec step acquire_event] in *.
    rewrite Acquire_full_suspends by assumption. cbn [fst snd].
    destruct (IH (park (fst c) sem)) as [Ht He]; [simpl; assumption|].
    rewrite Ht, He. split; [reflexivity|].
    unfold park; simpl. rewrite <- app_assoc. reflexivity.
Qed.

Lemma give_up_from (calls : list (goroutine * pollorder)) :
  forall capacity occupied : Z,
    trace (mkSem capacity occupied (map fst calls)) (map done_event calls)
    = map timed_out calls /\
    exec (mkSem capacity occupied (map fst calls)) (map done_event calls)
    = mkSem capacity occupied [].
Proof.
  induction calls as [|c rest IH]; intros capacity occupied.
  - split; reflexivity.
  - cbn [map trace exec step done_event]. unfold AcquireDone.
    cbn [sendq parked dequeue]. rewrite Z.eqb_refl.
    cbn [orb fst snd dataqsiz qcount].
    destruct (IH capacity occupied) as [Ht He].
    rewrite Ht, He. split; reflexivity.
Qed.

(** X3.  No over-grant.  When more calls of [Acquire] with live contexts
    arrive at a fresh semaphore than it has slots, the first [capacity] of
    them are granted and every later one is suspended, in its order of
    arrival, with [Occupied()] at [capacity].  When the contexts of the
    suspended calls then fire, each of them returns [nothing] and
    [errTimeout], nobody is left waiting and the semaphore is still full. *)
Theorem over_subscription (capacity : Z) (sem0 : semaphore)
    (first rest : list (goroutine * pollorder)) :
  New capacity = Ok sem0 ->
  Z.of_nat (length first) = capacity ->
  trace sem0 (map acquire_event (first ++ rest))
  = map granted first ++ map suspended rest /\
  exec sem0 (map acquire_event (first ++ rest))
  = mkSem capacity capacity (map fst rest) /\
  trace (exec sem0 (map acquire_event (first ++ rest))) (map done_event rest)
  = map timed_out rest /\
  exec (exec sem0 (map acquire_event (first ++ rest))) (map done_event rest)
  = mkSem capacity capacity [].
Proof.
  intros HN Hlen. apply New_Ok in HN as [_ ->].
  destruct (fill_from first (mkSem capacity 0 [])) as [Ht1 He1];
    [simpl; lia|].
  cbn [dataqsiz qcount sendq] in He1.
  replace (0 + Z.of_nat (length first)) with capacity in He1 by lia.
  destruct (park_from rest (mkSem capacity capacity [])) as [Ht2 He2];
    [simpl; lia|].
  cbn [dataqsiz qcount sendq app] in He2.
  assert (Hexec : exec (mkSem capacity 0 []) (map acquire_event (first ++ rest))
                  = mkSem capacity capacity (map fst rest)).
  { rewrite map_app, exec_app, He1, He2. reflexivity. }
  assert (Htrace : forall evs1 evs2 sem,
             trace sem (evs1 ++ evs2)
             = trace sem evs1 ++ trace (exec sem evs1) evs2).
  { induction evs1 as [|ev evs1 IH]; intros evs2 sem; simpl;
      [reflexivity|]. rewrite IH, app_assoc. reflexivity. }
  split.
  { rewrite map_app, Htrace, Ht1, He1, Ht2. reflexivity. }
  split; [exact Hexec|]. rewrite Hexec.
  apply give_up_from.
Qed.

Lemma over_subscription_witness :
  let first := [(1, SendFirst); (2, DoneFirst)] in
  let rest := [(3, SendFirst); (4, DoneFirst); (5, SendFirst)] in
  trace (mkSem 2 0 []) (map acquire_event (first ++ rest))
  = map granted first ++ map suspended rest /\
  exec (mkSem 2 0 []) (map acquire_event (first ++ rest))
  = mkSem 2 2 (map fst rest) /\
  trace (exec (mkSem 2 0 []) (map acquire_event (first ++ rest)))
    (map done_event rest)
  = map timed_out rest /\
  exec (exec (mkSem 2 0 []) (map acquire_event (first ++ rest)))
    (map done_event rest)
  = mkSem 2 2 [].
Proof.
  apply (over_subscription 2 (mkSem 2 0 [])
           [(1, SendFirst); (2, DoneFirst)]
           [(3, SendFirst); (4, DoneFirst); (5, SendFirst)]);
    reflexivity.
Defined.

(** ** Releasing more often than acquiring *)

Lemma release_calls_from (evs : list event) :
  forall sem : semaphore,
    sendq sem = [] -> 0 <= qcount sem ->
    forallb is_release_call evs = true ->
    exec sem evs
    = mkSem (dataqsiz sem) (Z.max 0 (qcount sem - Z.of_nat (length evs))) [].
Proof.
  induction evs as [|ev rest IH]; intros sem Hs Hq Hall.
  - simpl. rewrite Z.sub_0_r, Z.max_r by lia.
    destruct sem; simpl in *; subst; reflexivity.
  - cbn [forallb] in Hall. apply andb_true_iff in Hall as [Hev Hrest].
    cbn [exec length].
    assert (Hstep : fst (step sem ev)
                    = if 0 <? qcount sem then bufrecv sem else sem).
    { destruct ev as [g ctx order | g | | [|]]; try discriminate;
        simpl; unfold Release; rewrite Hs;
        destruct (0 <? qcount sem); reflexivity. }
    rewrite Hstep.
    destruct (Z.ltb_spec 0 (qcount sem)) as [Hpos|Hzero].
    + rewrite IH; [|exact Hs|simpl; lia|exact Hrest].
      simpl. f_equal. lia.
    + rewrite IH; [|exact Hs|exact Hq|exact Hrest].
      f_equal. lia.
Qed.

Lemma Release_answers_from (n : nat) :
  forall sem : semaphore,
    sendq sem = [] -> 0 <= qcount sem ->
    trace sem (repeat CallRelease n)
    = repeat (ReleaseReturns None) (Nat.min n (Z.to_nat (qcount sem)))
      ++ repeat (ReleaseReturns (Some errEmpty)) (n - Z.to_nat (qcount sem)).
Proof.
  induction n as [|n IH]; intros sem Hs Hq.
  - reflexivity.
  - cbn [repeat trace step]. unfold Release. rewrite Hs.
    destruct (Z.ltb_spec 0 (qcount sem)) as [Hpos|Hzero]; cbn [fst snd woken].
    + rewrite IH; [|exact Hs|simpl; lia]. cbn [bufrecv qcount].
      replace (Z.to_nat (qcount sem)) with (S (Z.to_nat (qcount sem - 1)))
        by lia.
      reflexivity.
    + rewrite IH; [|exact Hs|exact Hq].
      replace (Z.to_nat (qcount sem)) with 0%nat by lia.
      rewrite Nat.min_0_r, !Nat.sub_0_r. reflexivity.
Qed.

(** X4.  From a state with [Occupied() = k] and nobody waiting, any [n]
    calls that give a slot back ([Release] or the capability
    [releaser(sem)], by whoever makes them) leave [Occupied()] at
    [max 0 (k - n)]: the calls beyond the [k]-th change nothing, and a
    capability called once too often takes the slot of another holder if
    there is one.  Of [n] calls of [Release] the first [k] return no error
    and all later ones return [errEmpty]. *)
Theorem release_more_than_acquired (sem : semaphore) (evs : list event)
    (n : nat) :
  reachable sem ->
  sendq sem = [] ->
  forallb is_release_call evs = true ->
  Occupied (exec sem evs)
  = Z.max 0 (Occupied sem - Z.of_nat (length evs)) /\
  sendq (exec sem evs) = [] /\
  trace sem (repeat CallRelease n)
  = repeat (ReleaseReturns None) (Nat.min n (Z.to_nat (Occupied sem)))
    ++ repeat (ReleaseReturns (Some errEmpty)) (n - Z.to_nat (Occupied sem)).
Proof.
  intros HR Hs Hall. apply reachable_inv in HR as [[Hq _] _].
  rewrite (release_calls_from evs sem Hs Hq Hall). unfold Occupied.
  split; [reflexivity|]. split; [reflexivity|].
  now apply Release_answers_from.
Qed.

Lemma release_more_than_acquired_witness :
  let sem := mkSem 3 2 [] in
  let evs := [CallReleaseFunc releaser; CallRelease; CallReleaseFunc releaser] in
  Occupied (exec sem evs) = Z.max 0 (Occupied sem - Z.of_nat (length evs)) /\
  sendq (exec sem evs) = [] /\
  trace sem (repeat CallRelease 4)
  = repeat (ReleaseReturns None) (Nat.min 4 (Z.to_nat (Occupied sem)))
    ++ repeat (ReleaseReturns (Some errEmpty)) (4 - Z.to_nat (Occupied sem)).
Proof.
  apply (release_more_than_acquired (mkSem 3 2 [])
           [CallReleaseFunc releaser; CallRelease; CallReleaseFunc releaser] 4).
  - exists 3, (mkSem 3 0 []),
      [CallAcquire 1 Background SendFirst; CallAcquire 2 Background DoneFirst].
    split; reflexivity.
  - reflexivity.
  - reflexivity.
Defined.

(** ** Closing and flushing *)

(** On a channel that is not closed, [Release_chan] and [Acquire_chan] are
    [Release] and [Acquire]. *)
Lemma Release_chan_open (sem : semaphore) :
  Release_chan (mkChannel sem false)
  = let '(sem', err, w) := Release sem in (mkChannel sem' false, err, w).
Proof.
  unfold Release_chan, chanrecv, Release. cbn [closed chan andb].
  destruct (sendq sem); [destruct (0 <? qcount sem)|]; reflexivity.
Qed.

Lemma drain_total (fuel : nat) :
  forall (c : channel) (served : list goroutine),
    (length (sendq (chan c)) + Z.to_nat (qcount (chan c)) < fuel)%nat ->
    drain fuel c served <> OutOfFuel.
Proof.
  induction fuel as [|fuel IH]; intros c served Hfuel; [lia|].
  cbn [drain]. unfold chanrecv.
  destruct (closed c && (qcount (chan c) =? 0)); [discriminate|].
  destruct (sendq (chan c)) as [|g waiting] eqn:Hs.
  - destruct (Z.ltb_spec 0 (qcount (chan c))); [|discriminate].
    apply IH. cbn [chan bufrecv sendq qcount]. rewrite Hs in *. simpl in *. lia.
  - apply IH. cbn [chan sendq qcount]. simpl in Hfuel. lia.
Qed.

Lemma drain_Returns (fuel : nat) :
  forall (c c' : channel) (served served' : list goroutine),
    drain fuel c served = Returns (c', served') ->
    closed c' = true /\ qcount (chan c') = 0.
Proof.
  induction fuel as [|fuel IH]; intros c c' served served' H; [discriminate|].
  cbn [drain] in H. unfold chanrecv in H.
  destruct (closed c && (qcount (chan c) =? 0)) eqn:E.
  - injection H as <- _. apply andb_true_iff in E as [Hc Hq].
    split; [exact Hc|]. now apply Z.eqb_eq.
  - destruct (sendq (chan c)); [destruct (0 <? qcount (chan c))|];
      try discriminate; eapply IH; eassumption.
Qed.

Lemma drain_closed (fuel : nat) :
  forall (capacity occupied : Z) (served : list goroutine),
    0 <= occupied ->
    (Z.to_nat occupied < fuel)%nat ->
    drain fuel (mkChannel (mkSem capacity occupied []) true) served
    = Returns (mkChannel (mkSem capacity 0 []) true, served).
Proof.
  induction fuel as [|fuel IH]; intros capacity occupied served Hq Hfuel;
    [lia|].
  cbn [drain]. unfold chanrecv. cbn [closed chan qcount sendq andb].
  destruct (Z.eqb_spec occupied 0) as [->|Hne]; [reflexivity|].
  destruct (Z.ltb_spec 0 occupied); [|lia].
  unfold bufrecv. cbn [dataqsiz qcount sendq]. rewrite app_nil_r.
  apply IH; lia.
Qed.

(** The range loop of [Flush] never needs more turns than it is given. *)
Lemma Flush_total (c : channel) : Flush c <> OutOfFuel.
Proof.
  unfold Flush. destruct (close c) as [[c1 victims]|msg]; [|discriminate].
  pose proof (drain_total (turns c1) c1 []) as Hd.
  destruct (drain (turns c1) c1 []) as [[c2 served]| | |];
    try discriminate.
  exfalso. apply Hd; [|reflexivity]. unfold turns. lia.
Qed.

(** X5.  [Flush] on a semaphore in use: whatever it holds, [Flush] returns
    (the range loop ends), the channel is then closed and empty with its
    capacity unchanged, and every goroutine that was suspended in [Acquire]
    panics instead of returning. *)
Theorem Flush_empties (c : channel) :
  closed c = false ->
  reachable (chan c) ->
  Flush c
  = Returns (mkChannel (mkSem (Capacity (chan c)) 0 []) true, sendq (chan c)).
Proof.
  intros Hopen HR. apply reachable_inv in HR as [[Hq _] _].
  unfold Flush, close. rewrite Hopen.
  rewrite drain_closed; [reflexivity|exact Hq|].
  unfold turns. cbn [chan sendq qcount length]. lia.
Qed.

Lemma Flush_empties_witness :
  Flush (mkChannel (mkSem 2 2 [7; 8]) false)
  = Returns (mkChannel (mkSem 2 0 []) true, [7; 8]).
Proof.
  apply (Flush_empties (mkChannel (mkSem 2 2 [7; 8]) false)).
  - reflexivity.
  - exists 2, (mkSem 2 0 []),
      [CallAcquire 1 Background SendFirst; CallAcquire 2 Background SendFirst;
       CallAcquire 7 Background SendFirst; CallAcquire 8 Background DoneFirst].
    split; reflexivity.
Defined.

(** X6.  After [Flush] has returned the semaphore is of no further use:
    [Occupied()] is 0, yet [Release] returns no error (and changes
    nothing) instead of [errEmpty]; a second [Flush] panics; and [Acquire]
    panics, unless its context is done and [select] polls it first, when it
    returns [nothing] and [errTimeout]. *)
Theorem after_Flush (c c' : channel) (panicking : list goroutine) :
  Flush c = Returns (c', panicking) ->
  closed c' = true /\
  Occupied (chan c') = 0 /\
  Release_chan c' = (c', None, None) /\
  Flush c' = Panics "close of closed channel" /\
  (forall (g : goroutine) (ctx : Context),
      Acquire_chan c' g ctx SendFirst = Panics "send on closed channel") /\
  (forall (g : goroutine) (ctx : Context),
      Acquire_chan c' g ctx DoneFirst
      = if Done ctx
        then Returns (c', AcquireReturns g nothing (Some errTimeout))
        else Panics "send on closed channel").
Proof.
  unfold Flush. destruct (close c) as [[c1 victims]|msg]; [|discriminate].
  destruct (drain (turns c1) c1 []) as [[c2 served]| | |] eqn:Hd;
    try discriminate.
  intro H. injection H as <- _.
  apply drain_Returns in Hd as [Hc Hq].
  split; [exact Hc|]. split; [exact Hq|].
  split.
  { unfold Release_chan, chanrecv. rewrite Hc, Hq. reflexivity. }
  split.
  { unfold close. rewrite Hc. reflexivity. }
  split; intros g ctx; unfold Acquire_chan; rewrite Hc; reflexivity.
Qed.

Lemma after_Flush_witness :
  let c' := mkChannel (mkSem 3 0 []) true in
  closed c' = true /\
  Occupied (chan c') = 0 /\
  Release_chan c' = (c', None, None) /\
  Flush c' = Panics "close of closed channel" /\
  (forall (g : goroutine) (ctx : Context),
      Acquire_chan c' g ctx SendFirst = Panics "send on closed channel") /\
  (forall (g : goroutine) (ctx : Context),
      Acquire_chan c' g ctx DoneFirst
      = if Done ctx
        then Returns (c', AcquireReturns g nothing (Some errTimeout))
        else Panics "send on closed channel").
Proof.
  apply (after_Flush (mkChannel (mkSem 3 1 []) false)
           (mkChannel (mkSem 3 0 []) true) []).
  reflexivity.
Defined.

(** ** The benchmarks *)

Lemma Flush_idle (capacity occupied : Z) :
  0 <= occupied ->
  Flush (mkChannel (mkSem capacity occupied []) false)
  = Returns (mkChannel (mkSem capacity 0 []) true, []).
Proof.
  intro Hq. unfold Flush, close. cbn [closed chan dataqsiz qcount sendq].
  rewrite drain_closed; [reflexivity|exact Hq|].
  unfold turns. cbn [chan sendq qcount length]. lia.
Qed.

Lemma Acquire_alone_room (sem : semaphore) (order : pollorder) :
  qcount sem < dataqsiz sem ->
  Acquire_alone sem order = Returns (bufsend sem, releaser, None).
Proof.
  intro H. unfold Acquire_alone. rewrite Acquire_room by assumption.
  reflexivity.
Qed.

Lemma acquire_loop (n : nat) :
  forall (capacity occupied i : Z) (order_at : Z -> pollorder),
    occupied + Z.of_nat n <= capacity ->
    for_loop n i
      (fun i s => do r <- Acquire_alone s (order_at i); Returns (fst (fst r)))
      (mkSem capacity occupied [])
    = Returns (mkSem capacity (occupied + Z.of_nat n) []).
Proof.
  induction n as [|n IH]; intros capacity occupied i order_at Hroom.
  - simpl. rewrite Z.add_0_r. reflexivity.
  - cbn [for_loop]. rewrite Acquire_alone_room by (simpl; lia).
    cbn [bind fst]. unfold bufsend. cbn [dataqsiz qcount sendq].
    rewrite IH by lia. do 2 f_equal. lia.
Qed.

Lemma acquire_release_loop (n : nat) :
  forall (capacity i : Z) (order_at : Z -> pollorder),
    0 < capacity ->
    for_loop n i
      (fun i s => do r <- Acquire_alone s (order_at i);
                  Returns (fst (fst (Release (fst (fst r))))))
      (mkSem capacity 0 [])
    = Returns (mkSem capacity 0 []).
Proof.
  induction n as [|n IH]; intros capacity i order_at Hpos.
  - reflexivity.
  - cbn [for_loop]. rewrite Acquire_alone_room by (simpl; lia).
    cbn [bind fst]. unfold bufsend, Release, bufrecv.
    cbn [dataqsiz qcount sendq]. simpl (0 <? 0 + 1). cbn [fst].
    replace (0 + 1 - 1) with 0 by lia.
    apply IH. exact Hpos.
Qed.

(** X7.  [BenchmarkSemaphore_Acquire] reports no failure, for every
    [b.N >= 0] and whatever [select] draws: the [b.N] calls of [Acquire]
    all return without waiting, the semaphore is full after them, and the
    deferred [Flush] returns. *)
Theorem BenchmarkSemaphore_Acquire_passes (bN : Z)
    (order_at : Z -> pollorder) :
  0 <= bN ->
  BenchmarkSemaphore_Acquire bN order_at = Returns [].
Proof.
  intro HN. unfold BenchmarkSemaphore_Acquire, New, make.
  destruct (Z.ltb_spec bN 0); [lia|].
  rewrite acquire_loop by lia. cbn [bind Occupied Capacity qcount dataqsiz].
  replace (0 + Z.of_nat (Z.to_nat bN)) with bN by lia.
  rewrite Z.eqb_refl. unfold deferred_Flush.
  rewrite Flush_idle by lia. reflexivity.
Qed.

Lemma BenchmarkSemaphore_Acquire_passes_witness :
  BenchmarkSemaphore_Acquire 100
    (fun i => if Z.even i then SendFirst else DoneFirst)
  = Returns [].
Proof.
  apply (BenchmarkSemaphore_Acquire_passes 100). lia.
Defined.

(** X8.  [BenchmarkSemaphore_Acquire_Release] reports no failure, for
    every [b.N >= 0] and whatever [select] draws: in each turn [Acquire]
    returns without waiting and [Release] empties the semaphore again. *)
Theorem BenchmarkSemaphore_Acquire_Release_passes (bN : Z)
    (order_at : Z -> pollorder) :
  0 <= bN ->
  BenchmarkSemaphore_Acquire_Release bN order_at = Returns [].
Proof.
  intro HN. unfold BenchmarkSemaphore_Acquire_Release, New, make.
  destruct (Z.ltb_spec bN 0); [lia|].
  assert (Hloop : for_loop (Z.to_nat bN) 0
            (fun i s => do r <- Acquire_alone s (order_at i);
                        Returns (fst (fst (Release (fst (fst r))))))
            (mkSem bN 0 [])
          = Returns (mkSem bN 0 [])).
  { destruct (Z.eq_dec bN 0) as [->|Hne]; [reflexivity|].
    apply acquire_release_loop. lia. }
  rewrite Hloop. cbn [bind Occupied qcount Z.eqb]. unfold deferred_Flush.
  rewrite Flush_idle by lia. reflexivity.
Qed.

Lemma BenchmarkSemaphore_Acquire_Release_passes_witness :
  BenchmarkSemaphore_Acquire_Release 100
    (fun i => if Z.even i then SendFirst else DoneFirst)
  = Returns [].
Proof.
  apply (BenchmarkSemaphore_Acquire_Release_passes 100). lia.
Defined.

(** ** The concurrent test *)

Lemma count_cons {A : Type} (p : A -> bool) (x : A) (l : list A) :
  count p (x :: l) = (if p x then 1 else 0) + count p l.
Proof.
  change (x :: l) with ([x] ++ l). rewrite count_app, count_single.
  reflexivity.
Qed.

Lemma count_le_length {A : Type} (p : A -> bool) (l : list A) :
  count p l <= Z.of_nat (length l).
Proof.
  unfold count. pose proof (filter_length_le p l). lia.
Qed.

Lemma length_set_pc (v : pc) (l : list pc) :
  forall i : nat, length (set_pc i v l) = length l.
Proof.
  induction l as [|h t IH]; intros [|i]; simpl; try reflexivity.
  rewrite IH. reflexivity.
Qed.

Lemma count_set_pc (p : pc -> bool) (v old : pc) (l : list pc) :
  forall i : nat,
    nth_error l i = Some old ->
    count p (set_pc i v l)
    = count p l - (if p old then 1 else 0) + (if p v then 1 else 0).
Proof.
  induction l as [|h t IH]; intros [|i] H; simpl in H; try discriminate.
  - injection H as ->. cbn [set_pc]. rewrite !count_cons. lia.
  - cbn [set_pc]. rewrite !count_cons, (IH i H). lia.
Qed.

Lemma forallb_set_pc (q : pc -> bool) (v : pc) (l : list pc) :
  forall i : nat,
    forallb q l = true -> q v = true -> forallb q (set_pc i v l) = true.
Proof.
  induction l as [|h t IH]; intros [|i] Hl Hv; simpl in *; try reflexivity;
    apply andb_true_iff in Hl as [Hh Ht]; apply andb_true_iff; split; auto.
Qed.

Lemma forallb_nth_error (q : pc -> bool) (l : list pc) (i : nat) (p : pc) :
  forallb q l = true -> nth_error l i = Some p -> q p = true.
Proof.
  intros Hl Hn. apply nth_error_In in Hn.
  rewrite forallb_forall in Hl. now apply Hl.
Qed.

Lemma nth_error_set_pc (v : pc) (l : list pc) :
  forall i j : nat,
    nth_error (set_pc j v l) i
    = if Nat.eqb i j
      then match nth_error l i with Some _ => Some v | None => None end
      else nth_error l i.
Proof.
  induction l as [|h t IH]; intros [|i] [|j]; simpl; try reflexivity.
  - destruct (i =? j)%nat; reflexivity.
  - apply IH.
Qed.

Lemma wrap32_small (z : Z) : - 2 ^ 31 <= z < 2 ^ 31 -> wrap32 z = z.
Proof.
  intro H. unfold wrap32. rewrite Z.mod_small; lia.
Qed.

Lemma test_inv_start (n : Z) :
  0 <= n ->
  test_inv n (mkTest (mkSem n 0 []) 0 (repeat AtAcquire (Z.to_nat n)) []).
Proof.
  intro Hn. unfold test_inv. cbn [workers t_sem counter failures].
  rewrite repeat_length.
  assert (Hcount : forall (p : pc -> bool) k,
             p AtAcquire = false -> count p (repeat AtAcquire k) = 0).
  { intros p k Hp. induction k as [|k IH]; [reflexivity|].
    cbn [repeat]. rewrite count_cons, Hp, IH. reflexivity. }
  rewrite !Hcount by reflexivity.
  repeat split; try lia.
  induction (Z.to_nat n) as [|k IH]; [reflexivity|exact IH].
Qed.

(** One step of one worker: the invariant is kept, the worker that ran has
    advanced by one action unless it was gone, and the others are where
    they were. *)
Lemma work_inv (n : Z) (j : nat) (order : pollorder) (t : test) :
  n < 2 ^ 31 ->
  test_inv n t ->
  test_inv n (work j order t) /\
  forall i : nat,
    rank_at i (workers (work j order t))
    = if Nat.eqb i j then Nat.min 3 (S (rank_at i (workers t)))
      else rank_at i (workers t).
Proof.
  intros Hn (Hlen & Hsem & Hcnt & Hfail & Hrun).
  unfold work.
  destruct (nth_error (workers t) j) as [p|] eqn:Hp.
  2:{ split; [repeat split; assumption|].
      intro i. destruct (Nat.eqb_spec i j) as [->|Hne]; [|reflexivity].
      unfold rank_at. rewrite Hp. reflexivity. }
  assert (Hrank : forall v,
             rank v = Nat.min 3 (S (rank p)) ->
             forall i, rank_at i (set_pc j v (workers t))
                       = if Nat.eqb i j
                         then Nat.min 3 (S (rank_at i (workers t)))
                         else rank_at i (workers t)).
  { intros v Hv i. unfold rank_at. rewrite nth_error_set_pc.
    destruct (Nat.eqb_spec i j) as [->|Hne]; [|reflexivity].
    rewrite Hp. exact Hv. }
  pose proof (forallb_nth_error running _ _ _ Hrun Hp) as Hsound.
  pose proof (count_le_length holding (set_pc j (AtAdd releaser) (workers t)))
    as Hroom.
  rewrite length_set_pc, (count_set_pc _ _ _ _ _ Hp) in Hroom.
  pose proof (count_nonneg holding (set_pc j Exited (workers t))) as Hheld.
  rewrite (count_set_pc _ _ _ _ _ Hp) in Hheld.
  pose proof (count_le_length counted (set_pc j Exited (workers t))) as Hadd.
  rewrite length_set_pc, (count_set_pc _ _ _ _ _ Hp) in Hadd.
  pose proof (count_nonneg counted (workers t)) as Hcnt0.
  destruct p as [| |release|release|]; try discriminate.
  - (* the worker calls Acquire: it cannot be the one too many *)
    cbn [holding counted] in *.
    rewrite Hsem, Acquire_room by (simpl; lia).
    cbn [workers t_sem counter failures]. split.
    + unfold test_inv. cbn [workers t_sem counter failures].
      rewrite length_set_pc, !(count_set_pc _ _ _ _ _ Hp).
      cbn [holding counted]. unfold bufsend. cbn [dataqsiz qcount sendq].
      repeat split; try assumption; try lia.
      * f_equal. lia.
      * now apply forallb_set_pc.
    + now apply Hrank.
  - (* the worker adds to the counter *)
    destruct release; try discriminate.
    cbn [holding counted] in *. cbn [workers t_sem counter failures]. split.
    + unfold test_inv. cbn [workers t_sem counter failures].
      rewrite length_set_pc, !(count_set_pc _ _ _ _ _ Hp).
      cbn [holding counted]. unfold AddInt32.
      rewrite wrap32_small by lia.
      repeat split; try assumption; try lia.
      * rewrite Hsem. f_equal. lia.
      * now apply forallb_set_pc.
    + now apply Hrank.
  - (* the worker returns: the deferred capability gives the slot back *)
    destruct release; try discriminate.
    cbn [holding counted] in *.
    assert (Hcall : call releaser (t_sem t)
                    = (bufrecv (t_sem t), [ReleaseFuncReturns])).
    { rewrite Hsem. unfold call, Release. cbn [sendq qcount].
      destruct (Z.ltb_spec 0 (count holding (workers t))); [reflexivity|lia]. }
    rewrite Hcall. cbn [resume fold_left workers t_sem counter failures].
    split.
    + unfold test_inv. cbn [workers t_sem counter failures].
      rewrite length_set_pc, !(count_set_pc _ _ _ _ _ Hp).
      cbn [holding counted]. rewrite Hsem. unfold bufrecv.
      cbn [dataqsiz qcount sendq].
      repeat split; try assumption; try lia.
      * f_equal. lia.
      * now apply forallb_set_pc.
    + now apply Hrank.
  - (* the worker is gone *)
    split; [repeat split; assumption|].
    intro i. destruct (Nat.eqb_spec i j) as [->|Hne]; [|reflexivity].
    unfold rank_at. rewrite Hp. reflexivity.
Qed.

Lemma run_workers_inv (n : Z) (schedule : list (nat * pollorder)) :
  n < 2 ^ 31 ->
  forall t : test,
    test_inv n t ->
    test_inv n (run_workers schedule t) /\
    forall i : nat,
      rank_at i (workers (run_workers schedule t))
      = Nat.min 3 (rank_at i (workers t) + visits i schedule).
Proof.
  intro Hn. induction schedule as [|[j order] rest IH]; intros t Ht.
  - split; [exact Ht|]. intro i. unfold visits. simpl.
    rewrite Nat.add_0_r. unfold rank_at.
    destruct (nth_error (workers t) i) as [[| | | |]|]; reflexivity.
  - cbn [run_workers fold_left fst snd].
    destruct (work_inv n j order t Hn Ht) as [Ht' Hr].
    destruct (IH _ Ht') as [Hinv Hranks].
    split; [exact Hinv|]. intro i.
    unfold run_workers in Hranks. rewrite Hranks, Hr.
    unfold visits. cbn [filter fst]. rewrite (Nat.eqb_sym j i).
    destruct (Nat.eqb i j); cbn [length]; lia.
Qed.

Lemma all_exited_counts (l : list pc) :
  forallb is_exited l = true ->
  count holding l = 0 /\ count counted l = Z.of_nat (length l).
Proof.
  induction l as [|p rest IH]; intro H.
  - split; reflexivity.
  - cbn [forallb] in H. apply andb_true_iff in H as [Hp Hrest].
    destruct (IH Hrest) as [Hh Hc]. rewrite !count_cons, Hh, Hc.
    destruct p; try discriminate. cbn [holding counted length]. lia.
Qed.

Lemma rank_exited (p : pc) : rank p = 3%nat -> is_exited p = true.
Proof. destruct p; simpl; intro H; try discriminate; reflexivity. Qed.

(** The state of the test once the workers have run as scheduled. *)
Lemma workers_run (procs : Z) (schedule : list (nat * pollorder)) :
  Z.max 2 procs < 2 ^ 31 ->
  let n := Z.max 2 procs in
  let t := run_workers schedule
             (mkTest (mkSem n 0 []) 0 (repeat AtAcquire (Z.to_nat n)) []) in
  test_inv n t /\
  forall i : nat,
    (i < Z.to_nat n)%nat ->
    rank_at i (workers t) = Nat.min 3 (visits i schedule).
Proof.
  intros Hn n t.
  destruct (run_workers_inv n schedule Hn
              (mkTest (mkSem n 0 []) 0 (repeat AtAcquire (Z.to_nat n)) [])
              (test_inv_start n ltac:(lia))) as [Hinv Hranks].
  split; [exact Hinv|]. intros i Hi. subst t. rewrite Hranks.
  cbn [workers]. unfold rank_at at 1.
  rewrite nth_error_repeat by exact Hi. reflexivity.
Qed.

(** X9.  [TestSemaphore_Concurrently] passes under every interleaving in
    which each worker gets to run its three actions ([Acquire], the
    addition to the counter, the deferred release): no call of [Acquire]
    returns an error, the counter ends at the capacity, the semaphore ends
    empty and the deferred [Flush] returns. *)
Theorem TestSemaphore_Concurrently_passes (procs : Z)
    (schedule : list (nat * pollorder)) :
  Z.max 2 procs < 2 ^ 31 ->
  (forall i : nat,
      (i < Z.to_nat (Z.max 2 procs))%nat -> (3 <= visits i schedule)%nat) ->
  TestSemaphore_Concurrently procs schedule = Returns [].
Proof.
  intros Hn Hfair.
  destruct (workers_run procs schedule Hn) as [Hinv Hranks].
  unfold TestSemaphore_Concurrently, New, make.
  destruct (Z.ltb_spec (Z.max 2 procs) 0); [lia|].
  cbn [Capacity dataqsiz].
  set (t := run_workers schedule _) in *.
  destruct Hinv as (Hlen & Hsem & Hcnt & Hfail & Hrun).
  assert (Hall : forallb is_exited (workers t) = true).
  { apply forallb_forall. intros p Hp.
    apply In_nth_error in Hp as [i Hi].
    assert (Hlt : (i < length (workers t))%nat).
    { apply nth_error_Some. rewrite Hi. discriminate. }
    assert (Hi' : (i < Z.to_nat (Z.max 2 procs))%nat) by lia.
    specialize (Hranks i Hi'). specialize (Hfair i Hi').
    unfold rank_at in Hranks. rewrite Hi in Hranks.
    apply rank_exited. lia. }
  rewrite Hall.
  destruct (all_exited_counts _ Hall) as [Hh Hc].
  rewrite Hfail, Hcnt, Hc, Hsem. cbn [Capacity Occupied dataqsiz qcount].
  rewrite Hh, Hlen, Z.eqb_refl. cbn [Z.eqb app].
  unfold deferred_Flush. rewrite Flush_idle by lia. reflexivity.
Qed.

Lemma TestSemaphore_Concurrently_passes_witness :
  TestSemaphore_Concurrently 3
    [(0%nat, SendFirst); (2%nat, DoneFirst); (1%nat, SendFirst);
     (0%nat, SendFirst); (0%nat, SendFirst); (1%nat, SendFirst);
     (2%nat, SendFirst); (2%nat, SendFirst); (1%nat, DoneFirst)]
  = Returns [].
Proof.
  apply (TestSemaphore_Concurrently_passes 3).
  - reflexivity.
  - intros i Hi.
    change (Z.to_nat (Z.max 2 3)) with 3%nat in Hi.
    destruct i as [|[|[|i]]]; [cbv; lia..|lia].
Defined.

(** X10.  Whatever the interleaving of the workers of
    [TestSemaphore_Concurrently], and whatever [select] draws: no worker
    is ever suspended in [Acquire] or gets an error from it, [Occupied()]
    is the number of workers between their [Acquire] and their release, the
    counter is the number of workers that have added to it, and the test
    either is still waiting for workers or has passed. *)
Theorem TestSemaphore_Concurrently_never_fails (procs : Z)
    (schedule : list (nat * pollorder)) :
  Z.max 2 procs < 2 ^ 31 ->
  let n := Z.max 2 procs in
  let t := run_workers schedule
             (mkTest (mkSem n 0 []) 0 (repeat AtAcquire (Z.to_nat n)) []) in
  failures t = [] /\
  forallb running (workers t) = true /\
  sendq (t_sem t) = [] /\
  Occupied (t_sem t) = count holding (workers t) /\
  counter t = count counted (workers t) /\
  (TestSemaphore_Concurrently procs schedule = Returns [] \/
   TestSemaphore_Concurrently procs schedule = Blocks).
Proof.
  intros Hn n t.
  destruct (workers_run procs schedule Hn) as [Hinv _].
  fold n in Hinv. fold t in Hinv.
  destruct Hinv as (Hlen & Hsem & Hcnt & Hfail & Hrun).
  split; [exact Hfail|]. split; [exact Hrun|].
  split; [rewrite Hsem; reflexivity|].
  split; [rewrite Hsem; reflexivity|]. split; [exact Hcnt|].
  unfold TestSemaphore_Concurrently, New, make.
  destruct (Z.ltb_spec (Z.max 2 procs) 0); [lia|].
  cbn [Capacity dataqsiz]. fold n. fold t.
  destruct (forallb is_exited (workers t)) eqn:Hall; [left|right; reflexivity].
  destruct (all_exited_counts _ Hall) as [Hh Hc].
  rewrite Hfail, Hcnt, Hc, Hsem. cbn [Capacity Occupied dataqsiz qcount].
  rewrite Hh, Hlen, Z.eqb_refl. cbn [Z.eqb app].
  unfold deferred_Flush. rewrite Flush_idle by lia. reflexivity.
Qed.

Lemma TestSemaphore_Concurrently_never_fails_witness :
  let schedule := [(1%nat, SendFirst); (0%nat, DoneFirst); (1%nat, SendFirst);
                   (5%nat, SendFirst); (1%nat, SendFirst); (1%nat, SendFirst)] in
  let t := run_workers schedule
             (mkTest (mkSem 2 0 []) 0 (repeat AtAcquire 2) []) in
  failures t = [] /\
  forallb running (workers t) = true /\
  sendq (t_sem t) = [] /\
  Occupied (t_sem t) = count holding (workers t) /\
  counter t = count counted (workers t) /\
  (TestSemaphore_Concurrently 1 schedule = Returns [] \/
   TestSemaphore_Concurrently 1 schedule = Blocks).
Proof.
  apply (TestSemaphore_Concurrently_never_fails 1). reflexivity.
Defined.

(** ** Every call of [Acquire] returns at most once *)

Lemma entries_dequeue (g g' : goroutine) (q : list goroutine) :
  entries g (dequeue g' q)
  = entries g q - (if parked g' q && Z.eqb g' g then 1 else 0).
Proof.
  unfold entries. induction q as [|h t IH].
  - reflexivity.
  - cbn [dequeue parked]. destruct (Z.eqb_spec h g') as [->|Hne].
    + rewrite count_cons. cbn [orb andb]. lia.
    + rewrite !count_cons, IH. cbn [orb]. lia.
Qed.

Lemma Release_entries (g : goroutine) (sem : semaphore) :
  entries g (sendq (fst (fst (Release sem)))) - entries g (sendq sem)
  = - count (is_return_to g) (woken (snd (Release sem))).
Proof.
  unfold Release, entries.
  destruct (sendq sem) as [|h waiting] eqn:Hs.
  - destruct (0 <? qcount sem); cbn [fst snd sendq bufrecv woken];
      rewrite ?Hs; unfold count; simpl; lia.
  - cbn [fst snd sendq woken]. rewrite count_cons, count_single.
    cbn [is_return_to]. lia.
Qed.

Lemma step_entries (g : goroutine) (sem : semaphore) (ev : event) :
  entries g (sendq (fst (step sem ev))) - entries g (sendq sem)
  = count (is_call_of g) [ev] - count (is_return_to g) (snd (step sem ev)).
Proof.
  rewrite count_single.
  destruct ev as [g' ctx order | g' | | f]; cbn [step is_call_of].
  - unfold Acquire.
    destruct order, (can_send sem), (Done ctx);
      cbn [fst snd bufsend park sendq]; rewrite count_single;
      cbn [is_return_to]; unfold entries;
      try rewrite count_app, count_single;
      destruct (g' =? g); lia.
  - unfold AcquireDone. destruct (parked g' (sendq sem)) eqn:Hp;
      cbn [fst snd sendq].
    + rewrite entries_dequeue, Hp, count_single. cbn [is_return_to andb].
      lia.
    + unfold count. simpl. lia.
  - pose proof (Release_entries g sem) as HR.
    destruct (Release sem) as [[sem' err] w]. cbn [fst snd] in *.
    rewrite count_cons. cbn [is_return_to]. lia.
  - destruct f; cbn [call].
    + cbn [fst snd]. unfold count. simpl. lia.
    + pose proof (Release_entries g sem) as HR.
      destruct (Release sem) as [[sem' err] w]. cbn [fst snd] in *.
      rewrite count_cons. cbn [is_return_to]. lia.
Qed.

Lemma exec_entries (g : goroutine) (evs : list event) :
  forall sem : semaphore,
    entries g (sendq (exec sem evs)) - entries g (sendq sem)
    = count (is_call_of g) evs - count (is_return_to g) (trace sem evs).
Proof.
  induction evs as [|ev rest IH]; intro sem.
  - simpl. unfold count; simpl. lia.
  - cbn [exec trace]. rewrite count_app.
    change (ev :: rest) with ([ev] ++ rest). rewrite count_app.
    pose proof (step_entries g sem ev) as Hs.
    pose proof (IH (fst (step sem ev))) as Hr. lia.
Qed.

(** X11.  Every call of [Acquire] returns at most once.  After any
    interleaving on a semaphore built by [New], the calls of [Acquire] a
    goroutine has made less the returns of [Acquire] it has received are
    exactly its entries in the wait queue of the channel: a call that was
    granted a slot is never told later that it timed out, a call that timed
    out is never granted a slot later, and a call has not returned only if
    it is still suspended. *)
Theorem Acquire_returns_once (capacity : Z) (sem0 : semaphore)
    (evs : list event) (g : goroutine) :
  New capacity = Ok sem0 ->
  count (is_call_of g) evs - count (is_return_to g) (trace sem0 evs)
  = entries g (sendq (exec sem0 evs)) /\
  count (is_return_to g) (trace sem0 evs) <= count (is_call_of g) evs.
Proof.
  intro HN. apply New_Ok in HN as [_ ->].
  pose proof (exec_entries g evs (mkSem capacity 0 [])) as H.
  cbn [sendq] in H. unfold entries at 2 in H.
  change (count (fun h : Z => h =? g) []) with 0 in H.
  pose proof (count_nonneg (fun h => h =? g)
                (sendq (exec (mkSem capacity 0 []) evs))) as Hn.
  unfold entries in *. split; lia.
Qed.

Lemma Acquire_returns_once_witness :
  let evs := [CallAcquire 1 Background SendFirst;
              CallAcquire 2 Background SendFirst;
              CallAcquire 3 Background DoneFirst;
              ContextDone 2; CallRelease; CallRelease; ContextDone 3] in
  count (is_call_of 3) evs - count (is_return_to 3) (trace (mkSem 1 0 []) evs)
  = entries 3 (sendq (exec (mkSem 1 0 []) evs)) /\
  count (is_return_to 3) (trace (mkSem 1 0 []) evs) <= count (is_call_of 3) evs.
Proof.
  apply (Acquire_returns_once 1 (mkSem 1 0 [])). reflexivity.
Defined.
